(** * The search-and-matching equilibrium solver of ModeloDMPProdEspecifica

    A shallow embedding of the three functions of the notebook
    [Notebooks/ModeloDMPProdEspecifica.ipynb]: [TyR] (the reservation
    productivity update), [JCC] (the job-creation residual) and [SolveModel]
    (the nested damped iteration with its closed-form post-processing).

    Modelling choices.
    - Python's floats are idealised as exact rationals ([Qc], canonical
      fractions, so that equal numbers are equal terms).
    - [/] is Python's true division on scalars: a zero divisor raises
      [ZeroDivisionError] (on numpy values the same division would give inf
      or nan with a warning).
    - [**], [integrate.quad], [root], and the distribution object [F] come from
      outside the notebook: they are parameters of the development.  [**] may
      raise (as [0 ** -1] does), and so may [root], through the function it is
      given; the integrator and the distribution return numbers.
    - A [while] loop is run with an iteration budget (fuel); the budget is not
      part of the program, and running out of it means "still looping".
    - [print] appends a line to the output of the run. *)

From Stdlib Require Import QArith Qcanon Qcabs Qround List String Lia Lqa Bool.
From Stdlib Require Import ZArith.

Local Open Scope string_scope.
Local Open Scope Qc_scope.

(** ** Numbers *)

(** Decimal literals of the notebook as exact fractions. *)
Definition frac (n : Z) (d : positive) : Qc := Q2Qc (n # d).

(** [x > y] as the loop tests evaluate it. *)
Definition gtb (x y : Qc) : bool :=
  match x ?= y with Gt => true | _ => false end.

(** ** Exceptions and results *)

Inductive exn : Type :=
| ZeroDivisionError
| UnboundLocalError (name : string).

Inductive result (T : Type) : Type :=
| Ok (v : T)
| Raise (e : exn).
Arguments Ok {T} v.
Arguments Raise {T} e.

Definition rbind {S T} (m : result S) (k : S -> result T) : result T :=
  match m with
  | Ok v => k v
  | Raise e => Raise e
  end.

(** Python's [x / y] on scalars. *)
Definition truediv (x y : Qc) : result Qc :=
  if Qc_eq_bool y 0 then Raise ZeroDivisionError else Ok (x / y).

(** Reading a local variable that may not have been assigned yet. *)
Definition load (name : string) (v : option Qc) : result Qc :=
  match v with
  | Some x => Ok x
  | None => Raise (UnboundLocalError name)
  end.

(** ** Parameters *)

(** The distribution object: the code calls [F.pdf] and [F.cdf]. *)
Record distribution : Type := mkdist {
  pdf : Qc -> Qc;
  cdf : Qc -> Qc
}.

(** The list [prms], unpacked as [b, λ, A, α, β, r, c, F = prms]. *)
Record params : Type := mkprms {
  b : Qc;
  λ : Qc;
  A : Qc;
  α : Qc;
  β : Qc;
  r : Qc;
  c : Qc;
  F : distribution
}.

(** ** Output and runs *)

(** A printed line: [print(label)] or [print(label, value)]. *)
Inductive line : Type :=
| Print (label : string)
| PrintVal (label : string) (value : Qc).

Inductive outcome (T : Type) : Type :=
| Done (v : T)
| Raised (e : exn)
| OutOfFuel.
Arguments Done {T} v.
Arguments Raised {T} e.
Arguments OutOfFuel {T}.

(** A run: how it ended and what it printed, oldest line first. *)
Definition run (T : Type) : Type := (outcome T * list line)%type.

Definition ret {T} (v : T) : run T := (Done v, nil).

Definition bind {S T} (m : run S) (k : S -> run T) : run T :=
  match m with
  | (Done v, out) => let (o, out') := k v in (o, out ++ out')%list
  | (Raised e, out) => (Raised e, out)
  | (OutOfFuel, out) => (OutOfFuel, out)
  end.

Definition lift {T} (m : result T) : run T :=
  match m with
  | Ok v => (Done v, nil)
  | Raise e => (Raised e, nil)
  end.

Definition print (label : string) : run unit := (Done tt, Print label :: nil).
Definition print_val (label : string) (v : Qc) : run unit :=
  (Done tt, PrintVal label v :: nil).

Declare Scope run_scope.
Delimit Scope run_scope with run.
Notation "x <- m ;; k" := (bind m (fun x => k))
  (at level 61, m at next level, right associativity) : run_scope.
Notation "m ;;; k" := (bind m (fun _ => k))
  (at level 61, right associativity) : run_scope.

(** The local variables of [SolveModel].  [yr0], [θ0] and [diftheta] are
    assigned before the first loop; the others only inside it. *)
Record locals : Type := mklocals {
  yr0 : Qc;
  θ0 : Qc;
  diftheta : Qc;
  difyr : option Qc;
  yr1 : option Qc;
  yrout : option Qc;
  θ1 : option Qc
}.

Definition set_yr0 (v : Qc) (s : locals) : locals :=
  mklocals v (θ0 s) (diftheta s) (difyr s) (yr1 s) (yrout s) (θ1 s).
Definition set_θ0 (v : Qc) (s : locals) : locals :=
  mklocals (yr0 s) v (diftheta s) (difyr s) (yr1 s) (yrout s) (θ1 s).
Definition set_diftheta (v : Qc) (s : locals) : locals :=
  mklocals (yr0 s) (θ0 s) v (difyr s) (yr1 s) (yrout s) (θ1 s).
Definition set_difyr (v : Qc) (s : locals) : locals :=
  mklocals (yr0 s) (θ0 s) (diftheta s) (Some v) (yr1 s) (yrout s) (θ1 s).
Definition set_yr1 (v : Qc) (s : locals) : locals :=
  mklocals (yr0 s) (θ0 s) (diftheta s) (difyr s) (Some v) (yrout s) (θ1 s).
Definition set_yrout (v : Qc) (s : locals) : locals :=
  mklocals (yr0 s) (θ0 s) (diftheta s) (difyr s) (yr1 s) (Some v) (θ1 s).
Definition set_θ1 (v : Qc) (s : locals) : locals :=
  mklocals (yr0 s) (θ0 s) (diftheta s) (difyr s) (yr1 s) (yrout s) (Some v).

(** [while cond: body], run for at most [fuel] executions of the body. *)
Fixpoint while (fuel : nat) (cond : locals -> result bool)
    (body : locals -> run locals) (s : locals) : run locals :=
  match cond s with
  | Raise e => (Raised e, nil)
  | Ok false => (Done s, nil)
  | Ok true =>
      match fuel with
      | O => (OutOfFuel, nil)
      | S n => bind (body s) (while n cond body)
      end
  end.

(** ** The notebook's functions *)

Section Model.

(** [x ** y]; it may raise. *)
Variable pow : Qc -> Qc -> result Qc.
(** [integrate.quad(f, a, np.inf)[0]]. *)
Variable quad : (Qc -> Qc) -> Qc -> Qc.
(** [root(f, x0).x[0]]; the function handed over may raise. *)
Variable root : (Qc -> result Qc) -> Qc -> result Qc.

Definition TyR (yr θ : Qc) (prms : params) : result Qc :=
  let '(mkprms b λ A α β r c F) := prms in
  let intf := fun y => (y - yr) * pdf F y in
  rbind (pow θ α) (fun p =>
  rbind (truediv (A * p * β) (λ + r)) (fun k =>
  let yr1 := b + k * quad intf yr in
  Ok yr1)).

Definition JCC (θ yr : Qc) (prms : params) : result Qc :=
  let '(mkprms b λ A α β r c F) := prms in
  let intf := fun y => (y - yr) * pdf F y in
  rbind (pow θ α) (fun p =>
  rbind (truediv (A * p * (1 - β)) (θ * (r + λ))) (fun k =>
  let out := c - k * quad intf yr in
  Ok out)).

Section Solve.

Variable prms : params.
Variable tol : Qc.
Variable step : Qc.

(** [difyr>tol] *)
Definition inner_cond (s : locals) : result bool :=
  rbind (load "difyr" (difyr s)) (fun d => Ok (gtb d tol)).

(** The body of the inner loop. *)
Definition inner_body (s : locals) : run locals :=
  (yr1 <- lift (TyR (yr0 s) (θ0 s) prms) ;;
   let s := set_yr1 yr1 s in
   let difyr := Qcabs (yr1 - yr0 s) in
   let s := set_difyr difyr s in
   print_val "**** convergence: " difyr ;;;
   ret (set_yr0 (step * yr1 + (1 - step) * yr0 s) s))%run.

(** [diftheta>tol] *)
Definition outer_cond (s : locals) : result bool :=
  Ok (gtb (diftheta s) tol).

(** The body of the outer loop; the inner loop gets the budget [fuel]. *)
Definition outer_body (fuel : nat) (s : locals) : run locals :=
  (let s := set_difyr 1 s in
   print "**** Solving for yr given theta" ;;;
   s <- while fuel inner_cond inner_body s ;;
   yrout <- lift (load "yr1" (yr1 s)) ;;
   let s := set_yrout yrout s in
   print "Solving for theta" ;;;
   θ1 <- lift (root (fun x => JCC x yrout prms) (θ0 s)) ;;
   let s := set_θ1 θ1 s in
   let diftheta := Qcabs (θ1 - θ0 s) in
   let s := set_diftheta diftheta s in
   print_val "convergence: " diftheta ;;;
   ret (set_θ0 (step * θ1 + (1 - step) * θ0 s) s))%run.

(** The locals after [yr0, θ0 = 1, 1] and [diftheta = 1]. *)
Definition init : locals := mklocals 1 1 1 None None None None.

(** Everything after the outer loop. *)
Definition finish (s : locals) : run (Qc * Qc * Qc * Qc) :=
  let '(mkprms b λ A α β r c F) := prms in
  (θout <- lift (load "θ1" (θ1 s)) ;;
   yrout <- lift (load "yrout" (yrout s)) ;;
   p <- lift (pow θout α) ;;
   uout <- lift (truediv λ ((A * p) * (1 - cdf F yrout) + λ)) ;;
   let vout := θout * uout in
   ret (yrout, θout, uout, vout))%run.

Definition SolveModel (fuel : nat) : run (Qc * Qc * Qc * Qc) :=
  (s <- while fuel outer_cond (outer_body fuel) init ;;
   finish s)%run.

End Solve.
End Model.

(** The defaults [tol = 1e-6] and [step = 0.5]. *)
Definition tol_default : Qc := frac 1 1000000.
Definition step_default : Qc := frac 1 2.


(** ** Vocabulary of the properties *)

(** A run that ended, with a result or an exception. *)
Definition ended {T} (m : run T) : Prop := fst m <> OutOfFuel.

(** A run that is still looping whatever budget it is given. *)
Definition loops_forever {R} (m : nat -> run R) : Prop :=
  forall n, fst (m n) = OutOfFuel.

(** The tail integral both residuals ask the integrator for. *)
Definition tail (quad : (Qc -> Qc) -> Qc -> Qc) (F : distribution)
    (yr : Qc) : Qc :=
  quad (fun y => (y - yr) * pdf F y) yr.

(** The locals after one execution of the inner body that got [y1] from
    [TyR]. *)
Definition after_inner (step y1 : Qc) (s : locals) : locals :=
  mklocals (step * y1 + (1 - step) * yr0 s) (θ0 s) (diftheta s)
    (Some (Qcabs (y1 - yr0 s))) (Some y1) (yrout s) (θ1 s).

(** The locals after the rest of the outer body, entered with the locals [s1]
    the inner loop left, its last update [y1], and the root [t1]. *)
Definition after_outer (step y1 t1 : Qc) (s1 : locals) : locals :=
  mklocals (yr0 s1) (step * t1 + (1 - step) * θ0 s1) (Qcabs (t1 - θ0 s1))
    (difyr s1) (yr1 s1) (Some y1) (Some t1).

(** The inner loop only writes [yr0], [difyr] and [yr1]. *)
Definition same_outer (s s' : locals) : Prop :=
  θ0 s' = θ0 s /\ diftheta s' = diftheta s /\
  yrout s' = yrout s /\ θ1 s' = θ1 s.

(** The unemployment denominator [A p (1 - F.cdf(yr)) + λ], for [p] the
    value of [θ ** α]. *)
Definition denom (prms : params) (p yr : Qc) : Qc :=
  (A prms * p) * (1 - cdf (F prms) yr) + λ prms.

(** The successive values of [yr0] in the inner loop: [k] damped steps of the
    update [T1] from [y] (a step on which [T1] raises is where the loop
    stops). *)
Fixpoint damped (T1 : Qc -> result Qc) (step : Qc) (k : nat) (y : Qc) : Qc :=
  match k with
  | O => y
  | S k' =>
      match T1 y with
      | Ok y1 => damped T1 step k' (step * y1 + (1 - step) * y)
      | Raise _ => y
      end
  end.




(** ** Concrete collaborators

    Exact stand-ins for the outside world, used to run the model: a uniform
    productivity distribution, Simpson's rule (exact for the tail integrand of
    a uniform density), powers with an integer exponent, and a secant root
    finder. *)

Definition leb (x y : Qc) : bool := negb (gtb x y).

(** The uniform distribution on [[lo, hi]]. *)
Definition uniform (lo hi : Qc) : distribution :=
  mkdist
    (fun y => if leb lo y && leb y hi then 1 / (hi - lo) else 0)
    (fun y => if gtb lo y then 0
              else if gtb y hi then 1
              else (y - lo) / (hi - lo)).

(** Simpson's rule for an integrand that vanishes outside [[lo, hi]]: the
    integral over [[a, oo)] is taken over [[max a lo, hi]]. *)
Definition simpson (lo hi : Qc) (f : Qc -> Qc) (a : Qc) : Qc :=
  let a' := if gtb lo a then lo else a in
  if gtb hi a'
  then (hi - a') / frac 6 1
       * (f a' + frac 4 1 * f ((a' + hi) / frac 2 1) + f hi)
  else 0.

(** [x ** a] for an exponent [a] that is an integer: a negative power of
    zero raises. *)
Definition ipow (x a : Qc) : result Qc :=
  let n := Qfloor a in
  if (0 <=? n)%Z then Ok (Qcpower x (Z.to_nat n))
  else if Qc_eq_bool x 0 then Raise ZeroDivisionError
  else Ok (/ Qcpower x (Z.to_nat (- n))).

(** The secant method from [x0] and [x1], at most [n] steps; like [root], it
    hands back its last iterate when the steps run out, and lets an exception
    of [f] through. *)
Fixpoint secant (n : nat) (f : Qc -> result Qc) (x0 x1 : Qc) : result Qc :=
  rbind (f x0) (fun f0 =>
  if Qc_eq_bool f0 0 then Ok x0 else
  match n with
  | O => Ok x0
  | S n' =>
      rbind (f x1) (fun f1 =>
      if Qc_eq_bool (f1 - f0) 0 then Ok x1
      else secant n' f x1 (x1 - f1 * (x1 - x0) / (f1 - f0)))
  end).

Definition secant_root (f : Qc -> result Qc) (x0 : Qc) : result Qc :=
  secant 20 f x0 (x0 + 1).

(** Productivity uniform on [[0, 2]], with its integrator. *)
Definition U02 : distribution := uniform 0 (frac 2 1).
Definition quad02 : (Qc -> Qc) -> Qc -> Qc := simpson 0 (frac 2 1).

(** Parameters whose equilibrium is the initial guess [yr = 1], [θ = 1]. *)
Definition prms_rest : params :=
  mkprms (frac 1 2) (frac 1 8) 1 (frac 2 1) (frac 1 2) (frac 1 8) (frac 1 2)
    U02.

(** Parameters on which the undamped reservation update cycles 1, 2, 1, ... *)
Definition prms_cycle : params :=
  mkprms 1 (frac 1 16) 1 (frac 2 1) (frac 1 2) (frac 1 16) 1 U02.



(** [prms_rest] with both rates at zero: every division by [λ + r] raises. *)
Definition prms_norates : params :=
  mkprms (frac 1 2) 0 1 (frac 2 1) (frac 1 2) 0 (frac 1 2) U02.

(** Productivity uniform on [[3, 5]], with its integrator, and parameters on
    which the solver takes several damped steps. *)
Definition U35 : distribution := uniform (frac 3 1) (frac 5 1).
Definition quad35 : (Qc -> Qc) -> Qc -> Qc := simpson (frac 3 1) (frac 5 1).
Definition prms_easy : params :=
  mkprms 1 (frac 1 2) 1 (frac 2 1) (frac 1 2) (frac 1 2) 1 U35.

(** What the solver prints on [prms_rest]. *)
Definition out_rest : list line :=
  Print "**** Solving for yr given theta"
    :: PrintVal "**** convergence: " 0
    :: Print "Solving for theta"
    :: PrintVal "convergence: " 0 :: nil.


(** [prms_rest] for workers without bargaining power: the reservation update
    is the income floor, whatever the guess. *)
Definition prms_nobargain : params :=
  mkprms (frac 1 2) (frac 1 8) 1 (frac 2 1) 0 (frac 1 8) (frac 1 2) U02.

(** The tail integral of [U02] in closed form. *)
Definition tail02 (y : Qc) : Qc :=
  if gtb 0 y then 1 - y
  else if gtb (frac 2 1) y
       then (frac 2 1 - y) * (frac 2 1 - y) * frac 1 4
       else 0.

(** [prms_rest] with a small bargaining weight, the reservation update on it
    in closed form, and what the solver prints on it with [tol = 3/4]. *)
Definition prms_mild : params :=
  mkprms (frac 1 2) (frac 1 8) 1 (frac 2 1) (frac 1 16) (frac 1 8) (frac 1 2)
    U02.

Definition update_mild (θ y : Qc) : Qc :=
  frac 1 2 + θ * θ * frac 1 4 * tail02 y.

Definition out_mild : list line :=
  Print "**** Solving for yr given theta"
    :: PrintVal "**** convergence: " (frac 7 16)
    :: Print "Solving for theta"
    :: PrintVal "convergence: " (frac 5887 7935) :: nil.

(** * Properties *)

(** ** Comparisons *)

Lemma gtb_true x y : gtb x y = true <-> y < x.
Proof.
  unfold gtb. pose proof (Qcgt_alt x y) as H.
  destruct (x ?= y) eqn:E; split; intro K; try discriminate; try reflexivity.
  - apply H in K. discriminate.
  - apply H in K. discriminate.
  - apply H. reflexivity.
Qed.

Lemma gtb_false x y : gtb x y = false <-> x <= y.
Proof.
  unfold gtb. pose proof (Qcle_alt x y) as H.
  destruct (x ?= y) eqn:E; split; intro K; try discriminate; try reflexivity.
  - apply H. discriminate.
  - apply H. discriminate.
  - apply H in K. congruence.
Qed.

Lemma Qc_eq_bool_true (x y : Qc) : x = y -> Qc_eq_bool x y = true.
Proof.
  intros ->. unfold Qc_eq_bool. destruct (Qc_eq_dec y y); congruence.
Qed.

Lemma Qc_eq_bool_false (x y : Qc) : x <> y -> Qc_eq_bool x y = false.
Proof.
  intro H. unfold Qc_eq_bool. destruct (Qc_eq_dec x y); congruence.
Qed.

(** ** Order and arithmetic, through the underlying fractions *)

Lemma Qc_plus_Q (x y : Qc) : (this (x + y) == this x + this y)%Q.
Proof.
  unfold Qcplus, Q2Qc. cbn [this]. apply Qred_correct.
Qed.

Lemma Qc_div_Q (x y : Qc) : (this (x / y) == this x / this y)%Q.
Proof.
  unfold Qcdiv, Qcmult, Qcinv, Q2Qc. cbn [this]. rewrite !Qred_correct.
  reflexivity.
Qed.

Lemma Qc_mult_Q (x y : Qc) : (this (x * y) == this x * this y)%Q.
Proof.
  unfold Qcmult, Q2Qc. cbn [this]. apply Qred_correct.
Qed.




(** ** Division *)

Lemma truediv_ok (x y : Qc) : y <> 0 -> truediv x y = Ok (x / y).
Proof.
  intro H. unfold truediv. rewrite (Qc_eq_bool_false _ _ H). reflexivity.
Qed.

Lemma truediv_zero (x : Qc) : truediv x 0 = Raise ZeroDivisionError.
Proof.
  unfold truediv. rewrite Qc_eq_bool_true; reflexivity.
Qed.

Lemma truediv_inv (x y q : Qc) :
  truediv x y = Ok q -> y <> 0 /\ q = x / y.
Proof.
  unfold truediv, Qc_eq_bool. destruct (Qc_eq_dec y 0); intro H.
  - discriminate.
  - split; [assumption | congruence].
Qed.


(** ** Runs *)

Lemma bind_done {S T} (m : run S) (k : S -> run T) (v : T) (out : list line) :
  bind m k = (Done v, out) ->
  exists u out1 out2,
    m = (Done u, out1) /\ k u = (Done v, out2) /\ out = (out1 ++ out2)%list.
Proof.
  destruct m as [[u | e |] out1]; simpl; try discriminate.
  destruct (k u) as [o out2] eqn:E. intro H. injection H as -> <-.
  exists u, out1, out2. auto.
Qed.

Lemma bind_out_of_fuel_l {S T} (m : run S) (k : S -> run T) :
  fst m = OutOfFuel -> fst (bind m k) = OutOfFuel.
Proof.
  destruct m as [[u | e |] out]; simpl; try discriminate. reflexivity.
Qed.



(** ** Loops *)


(** ** The two residuals *)

Section Residuals.

Variable pow : Qc -> Qc -> result Qc.
Variable quad : (Qc -> Qc) -> Qc -> Qc.

Lemma TyR_zero_divisor yr θ b λ A α β r c F p :
  pow θ α = Ok p -> λ + r = 0 ->
  TyR pow quad yr θ (mkprms b λ A α β r c F) = Raise ZeroDivisionError.
Proof.
  intros Hp H. unfold TyR. rewrite Hp. simpl. rewrite H, truediv_zero.
  reflexivity.
Qed.

Lemma TyR_inv yr θ b λ A α β r c F t :
  TyR pow quad yr θ (mkprms b λ A α β r c F) = Ok t ->
  exists p,
    pow θ α = Ok p /\ λ + r <> 0 /\
    t = b + (A * p * β) / (λ + r) * tail quad F yr.
Proof.
  unfold TyR, tail. destruct (pow θ α) as [p | e]; simpl; [| discriminate].
  destruct (truediv (A * p * β) (λ + r)) as [k | e] eqn:E; simpl;
    [| discriminate].
  apply truediv_inv in E. destruct E as [Hd ->]. intro H.
  exists p. repeat split; congruence.
Qed.




(** C2. For every [yR], [θ] and parameter set on which the formula is defined
    ([θ ** α] has a value [p], and [λ + r] is not zero), [TyR yR θ prms]
    returns [b + (A p β / (λ + r))] times the integral over [[yR, oo)] of
    [(y - yR) f(y)], as the integrator computes it for the density [f] of the
    distribution [F]; the call prints nothing and touches no variable of the
    caller. *)
Theorem TyR_formula yr θ b λ A α β r c F p :
  pow θ α = Ok p ->
  λ + r <> 0 ->
  TyR pow quad yr θ (mkprms b λ A α β r c F)
    = Ok (b + (A * p * β) / (λ + r)
               * quad (fun y => (y - yr) * pdf F y) yr)
  /\ snd (lift (TyR pow quad yr θ (mkprms b λ A α β r c F))) = nil.
Proof.
  intros Hp H. unfold TyR. rewrite Hp. simpl. rewrite (truediv_ok _ _ H).
  split; reflexivity.
Qed.



End Residuals.

(** ** The solver *)

Lemma bind_Done {S T} (v : S) (out : list line) (k : S -> run T) :
  bind (Done v, out) k = (fst (k v), (out ++ snd (k v))%list).
Proof.
  simpl. destruct (k v). reflexivity.
Qed.

Lemma bind_lift_Ok {S T} (v : S) (k : S -> run T) : bind (lift (Ok v)) k = k v.
Proof.
  simpl. destruct (k v). reflexivity.
Qed.

Lemma bind_print {T} (l : string) (k : unit -> run T) :
  bind (print l) k = (fst (k tt), Print l :: snd (k tt)).
Proof.
  unfold print. rewrite bind_Done. reflexivity.
Qed.

Lemma bind_print_val {T} (l : string) (v : Qc) (k : unit -> run T) :
  bind (print_val l v) k = (fst (k tt), PrintVal l v :: snd (k tt)).
Proof.
  unfold print_val. rewrite bind_Done. reflexivity.
Qed.

Lemma lift_inv {T} (m : result T) (v : T) (out : list line) :
  lift m = (Done v, out) -> m = Ok v /\ out = nil.
Proof.
  destruct m; simpl; intro H; inversion H; auto.
Qed.

Lemma bind_out {S T} (m : run S) (k : S -> run T) :
  exists rest, snd (bind m k) = (snd m ++ rest)%list.
Proof.
  destruct m as [[v | e |] out]; simpl.
  - destruct (k v) as [o out']. exists out'. reflexivity.
  - exists nil. rewrite app_nil_r. reflexivity.
  - exists nil. rewrite app_nil_r. reflexivity.
Qed.

(** Exposes the output of the first part of a sequence. *)
Ltac peel_out :=
  match goal with
  | |- context [snd (bind ?m ?k)] =>
      let r := fresh "rest" in destruct (bind_out m k) as [r ->]
  end.

Lemma while_true n (cond : locals -> result bool)
    (body : locals -> run locals) s :
  cond s = Ok true ->
  while (S n) cond body s = bind (body s) (while n cond body).
Proof.
  intro H. simpl. rewrite H. reflexivity.
Qed.

Lemma while_false n (cond : locals -> result bool)
    (body : locals -> run locals) s :
  cond s = Ok false -> while n cond body s = (Done s, nil).
Proof.
  intro H. destruct n; simpl; rewrite H; reflexivity.
Qed.

Lemma while_out_of_fuel (cond : locals -> result bool)
    (body : locals -> run locals) s :
  cond s = Ok true -> while 0 cond body s = (OutOfFuel, nil).
Proof.
  intro H. simpl. rewrite H. reflexivity.
Qed.

(** A loop that ended normally: its test is false at the end, an invariant of
    the body holds at the end, and either the body never ran or its last
    execution produced the final locals. *)
Lemma while_done (cond : locals -> result bool) (body : locals -> run locals)
    (P : locals -> Prop) :
  (forall s s' out,
     P s -> cond s = Ok true -> body s = (Done s', out) -> P s') ->
  forall n s s' out,
    P s ->
    while n cond body s = (Done s', out) ->
    cond s' = Ok false /\ P s' /\
    (s' = s /\ out = nil \/
     exists s0 out0 out1,
       P s0 /\ cond s0 = Ok true /\ body s0 = (Done s', out1) /\
       out = (out0 ++ out1)%list).
Proof.
  intro HP. induction n as [| n IH]; intros s s' out Hs H; simpl in H;
    destruct (cond s) as [[|] | e] eqn:E; try discriminate.
  - injection H as <- <-. auto.
  - apply bind_done in H. destruct H as (u & out1 & out2 & Hb & Hw & ->).
    pose proof (HP _ _ _ Hs E Hb) as Hu.
    destruct (IH _ _ _ Hu Hw)
      as (Hc & Hp & [[-> ->] | (s0 & o0 & o1 & Hp0 & Hc0 & Hb0 & ->)]).
    + repeat split; try assumption. right. exists s, nil, out1.
      rewrite app_nil_r. auto.
    + repeat split; try assumption. right. exists s0, (out1 ++ o0)%list, o1.
      rewrite app_assoc. auto.
  - injection H as <- <-. auto.
Qed.

(** A loop entered with a true test that ended normally ran its body on the
    initial locals first. *)
Lemma while_first (cond : locals -> result bool) (body : locals -> run locals) :
  forall n s s' out,
    cond s = Ok true ->
    while n cond body s = (Done s', out) ->
    exists n' s1 out1 out2,
      n = S n' /\ body s = (Done s1, out1) /\
      while n' cond body s1 = (Done s', out2) /\ out = (out1 ++ out2)%list.
Proof.
  intros n s s' out E H. destruct n as [| n]; simpl in H; rewrite E in H.
  - discriminate.
  - apply bind_done in H. destruct H as (u & out1 & out2 & Hb & Hw & ->).
    exists n, u, out1, out2. auto.
Qed.

Section Solver.

Variable pow : Qc -> Qc -> result Qc.
Variable quad : (Qc -> Qc) -> Qc -> Qc.
Variable root : (Qc -> result Qc) -> Qc -> result Qc.
Variable prms : params.
Variable tol : Qc.
Variable step : Qc.

(** Abbreviations for this section. *)
Let T := TyR pow quad.
Let J := JCC pow quad.
Let icond := inner_cond tol.
Let ibody := inner_body pow quad prms step.
Let ocond := outer_cond tol.
Let obody := outer_body pow quad root prms tol step.
Let solve := SolveModel pow quad root prms tol step.

Lemma inner_body_ok s y1 :
  T (yr0 s) (θ0 s) prms = Ok y1 ->
  ibody s = (Done (after_inner step y1 s),
             PrintVal "**** convergence: " (Qcabs (y1 - yr0 s)) :: nil).
Proof.
  intro H. unfold ibody, inner_body. fold T. rewrite H. reflexivity.
Qed.

Lemma inner_body_raises s e :
  T (yr0 s) (θ0 s) prms = Raise e -> ibody s = (Raised e, nil).
Proof.
  intro H. unfold ibody, inner_body. fold T. rewrite H. reflexivity.
Qed.

Lemma inner_body_ended s : ended (ibody s).
Proof.
  destruct (T (yr0 s) (θ0 s) prms) as [y1 | e] eqn:E.
  - rewrite (inner_body_ok _ _ E). discriminate.
  - rewrite (inner_body_raises _ _ E). discriminate.
Qed.

Lemma inner_body_done s s' out :
  ibody s = (Done s', out) ->
  exists y1, T (yr0 s) (θ0 s) prms = Ok y1 /\ s' = after_inner step y1 s /\
             out = PrintVal "**** convergence: " (Qcabs (y1 - yr0 s)) :: nil.
Proof.
  destruct (T (yr0 s) (θ0 s) prms) as [y1 | e] eqn:E.
  - rewrite (inner_body_ok _ _ E). intro H. injection H as <- <-.
    exists y1. auto.
  - rewrite (inner_body_raises _ _ E). discriminate.
Qed.

Lemma outer_body_ok fuel s s1 out1 y1 t1 :
  while fuel icond ibody (set_difyr 1 s) = (Done s1, out1) ->
  yr1 s1 = Some y1 ->
  root (fun x => J x y1 prms) (θ0 s1) = Ok t1 ->
  obody fuel s =
    (Done (after_outer step y1 t1 s1),
     Print "**** Solving for yr given theta"
       :: out1 ++ Print "Solving for theta"
       :: PrintVal "convergence: " (Qcabs (t1 - θ0 s1)) :: nil)%list.
Proof.
  intros Hw Hy Hr. unfold obody, outer_body.
  fold icond. fold ibody. fold J.
  rewrite bind_print, Hw, bind_Done, Hy. simpl load.
  rewrite bind_lift_Ok, bind_print. simpl θ0. rewrite Hr.
  rewrite bind_lift_Ok, bind_print_val. reflexivity.
Qed.

Lemma outer_body_done fuel s s2 out :
  obody fuel s = (Done s2, out) ->
  exists s1 out1 y1 t1,
    while fuel icond ibody (set_difyr 1 s) = (Done s1, out1) /\
    yr1 s1 = Some y1 /\
    root (fun x => J x y1 prms) (θ0 s1) = Ok t1 /\
    s2 = after_outer step y1 t1 s1 /\
    out = (Print "**** Solving for yr given theta"
             :: out1 ++ Print "Solving for theta"
             :: PrintVal "convergence: " (Qcabs (t1 - θ0 s1)) :: nil)%list.
Proof.
  intro H. pose proof H as H0. unfold obody, outer_body in H.
  fold icond in H. fold ibody in H. fold J in H.
  rewrite bind_print in H.
  destruct (while fuel icond ibody (set_difyr 1 s)) as [[s1 | e |] out1] eqn:Hw;
    try discriminate.
  rewrite bind_Done in H.
  destruct (yr1 s1) as [y1 |] eqn:Hy; [| discriminate].
  simpl load in H. rewrite bind_lift_Ok, bind_print in H. simpl θ0 in H.
  destruct (root (fun x => J x y1 prms) (θ0 s1)) as [t1 | e] eqn:Hr;
    [| discriminate].
  exists s1, out1, y1, t1.
  rewrite (outer_body_ok _ _ _ _ _ _ Hw Hy Hr) in H0.
  injection H0 as <- <-. auto.
Qed.

(** *** More budget changes nothing *)




(** *** What the loops leave behind *)

Lemma inner_loop_done n s s' out d :
  difyr s = Some d -> d > tol ->
  while n icond ibody s = (Done s', out) ->
  same_outer s s' /\
  exists y0 y1,
    T y0 (θ0 s) prms = Ok y1 /\ Qcabs (y1 - y0) <= tol /\
    yr1 s' = Some y1 /\ yr0 s' = step * y1 + (1 - step) * y0.
Proof.
  intros Hd Hgt H.
  assert (Hc : icond s = Ok true).
  { unfold icond, inner_cond. rewrite Hd. simpl. f_equal.
    apply gtb_true. exact Hgt. }
  assert (HP : forall u u' o, same_outer s u -> icond u = Ok true ->
                 ibody u = (Done u', o) -> same_outer s u').
  { intros u u' o Hu _ Hb. apply inner_body_done in Hb.
    destruct Hb as (y1 & _ & -> & _). exact Hu. }
  assert (Hs : same_outer s s) by (repeat split).
  destruct (while_done icond ibody (same_outer s) HP n s s' out Hs H)
    as (Hf & Hp & [[-> _] | (s0 & o0 & o1 & Hp0 & Hc0 & Hb0 & _)]).
  - congruence.
  - split; [exact Hp |].
    apply inner_body_done in Hb0. destruct Hb0 as (y1 & Ht & -> & _).
    exists (yr0 s0), y1. destruct Hp0 as (E0 & _). rewrite <- E0.
    repeat split; try assumption; try reflexivity.
    unfold icond, inner_cond in Hf. simpl in Hf.
    injection Hf as Hf. apply gtb_false in Hf. exact Hf.
Qed.

Lemma outer_cond_init : tol < 1 -> ocond init = Ok true.
Proof.
  intro H. unfold ocond, outer_cond. simpl. f_equal. apply gtb_true. exact H.
Qed.

Lemma inner_cond_start s : tol < 1 -> icond (set_difyr 1 s) = Ok true.
Proof.
  intro H. unfold icond, inner_cond. simpl. f_equal. apply gtb_true. exact H.
Qed.

(** Once the outer loop has ended normally after at least one pass, its
    locals hold the last update [yrout] and the last root [θ1], each within
    the tolerance of the guess it was computed from. *)
Lemma outer_loop_done n s out :
  tol < 1 ->
  while n ocond (obody n) init = (Done s, out) ->
  exists y0 θp yr θ,
    T y0 θp prms = Ok yr /\ Qcabs (yr - y0) <= tol /\
    root (fun x => J x yr prms) θp = Ok θ /\ Qcabs (θ - θp) <= tol /\
    yrout s = Some yr /\ θ1 s = Some θ.
Proof.
  intros Hlt H.
  assert (HP : forall u u' o, True -> ocond u = Ok true ->
                 obody n u = (Done u', o) -> True) by auto.
  destruct (while_done ocond (obody n) (fun _ => True) HP n init s out I H)
    as (Hf & _ & [[-> _] | (s0 & o0 & o1 & _ & Hc0 & Hb0 & _)]).
  - rewrite (outer_cond_init Hlt) in Hf. discriminate.
  - apply outer_body_done in Hb0.
    destruct Hb0 as (s1 & out1 & y1 & t1 & Hi & Hy & Hr & -> & _).
    apply (inner_loop_done n (set_difyr 1 s0) s1 out1 1 eq_refl Hlt) in Hi.
    destruct Hi as ((Hθ & _) & y0 & y1' & Ht & Hg & Hy' & _).
    rewrite Hy in Hy'. injection Hy' as <-.
    exists y0, (θ0 s1), y1, t1. cbn [θ0 set_difyr] in Hθ, Ht.
    rewrite <- Hθ in Ht. repeat split; try assumption.
    unfold ocond, outer_cond in Hf. injection Hf as Hf.
    apply gtb_false in Hf. exact Hf.
Qed.


Lemma finish_unbound s :
  θ1 s = None -> finish pow prms s = (Raised (UnboundLocalError "θ1"), nil).
Proof.
  intro H. unfold finish. destruct prms as [b λ A α β r c F]. rewrite H.
  reflexivity.
Qed.

Lemma finish_done s yr θ u v out :
  finish pow prms s = (Done (yr, θ, u, v), out) ->
  exists p,
    yrout s = Some yr /\ θ1 s = Some θ /\ pow θ (α prms) = Ok p /\
    denom prms p yr <> 0 /\
    u = λ prms / denom prms p yr /\ v = θ * u /\ out = nil.
Proof.
  unfold finish, denom. destruct prms as [b λ A α β r c F]. simpl.
  destruct (θ1 s) as [t |]; [| discriminate].
  destruct (yrout s) as [y |]; [| discriminate].
  simpl load. rewrite !bind_lift_Ok.
  destruct (pow t α) as [p | e] eqn:Hp; [| discriminate].
  rewrite bind_lift_Ok.
  destruct (truediv λ (A * p * (1 - cdf F y) + λ)) as [q | e] eqn:E;
    [| discriminate].
  rewrite bind_lift_Ok. unfold ret. intro H. injection H as <- <- <- <- <-.
  apply truediv_inv in E. destruct E as [Hd ->]. exists p. auto 10.
Qed.

Lemma solve_done n yr θ u v out :
  solve n = (Done (yr, θ, u, v), out) ->
  exists s p,
    while n ocond (obody n) init = (Done s, out) /\
    yrout s = Some yr /\ θ1 s = Some θ /\ pow θ (α prms) = Ok p /\
    denom prms p yr <> 0 /\
    u = λ prms / denom prms p yr /\ v = θ * u.
Proof.
  intro H. unfold solve, SolveModel in H. fold ocond in H. fold obody in H.
  apply bind_done in H. destruct H as (s & out1 & out2 & Hw & Hf & ->).
  apply finish_done in Hf.
  destruct Hf as (p & Hy & Ht & Hp & Hd & Hu & Hv & ->).
  exists s, p. rewrite app_nil_r. auto 10.
Qed.

(** *** The iteration *)

(** The first pass from the initial guesses: the output starts with the outer
    banner and the diagnostic of the first inner step. *)
Lemma solve_first_lines n y1 :
  tol < 1 -> T 1 1 prms = Ok y1 ->
  exists rest,
    snd (solve (S n)) =
      Print "**** Solving for yr given theta"
        :: PrintVal "**** convergence: " (Qcabs (y1 - 1)) :: rest.
Proof.
  intros Hlt Ht. unfold solve, SolveModel. fold ocond. fold obody.
  rewrite (while_true _ _ _ _ (outer_cond_init Hlt)).
  do 2 peel_out.
  unfold obody at 1. unfold outer_body. fold icond. fold ibody.
  rewrite bind_print. cbn [snd]. peel_out.
  rewrite (while_true _ _ _ _ (inner_cond_start _ Hlt)). peel_out.
  rewrite (inner_body_ok (set_difyr 1 init) y1 Ht). cbn [snd yr0 set_difyr init].
  eexists. cbn [app]. reflexivity.
Qed.





(** C10. If [tol >= 1] the outer loop body never runs and [SolveModel] fails
    on reading the unassigned [θ1], having printed nothing; for [tol < 1], a
    run that returns a result has printed the banner of a first outer pass
    and the diagnostic of a first inner step: both loops ran at least once. *)
Theorem SolveModel_tolerance_threshold :
  (1 <= tol ->
   forall n, solve n = (Raised (UnboundLocalError "θ1"), nil))
  /\ (tol < 1 ->
   forall n res out, solve n = (Done res, out) ->
     exists d rest,
       out = Print "**** Solving for yr given theta"
               :: PrintVal "**** convergence: " d :: rest).
Proof.
  split.
  - intros Hge n. unfold solve, SolveModel. fold ocond. fold obody.
    rewrite while_false.
    + rewrite bind_Done, finish_unbound; reflexivity.
    + unfold ocond, outer_cond. simpl. f_equal. apply gtb_false. exact Hge.
  - intros Hlt n res out H. pose proof H as H0.
    unfold solve, SolveModel in H. fold ocond in H. fold obody in H.
    apply bind_done in H. destruct H as (s & o1 & o2 & Hw & _ & _).
    apply (while_first _ _ _ _ _ _ (outer_cond_init Hlt)) in Hw.
    destruct Hw as (n' & s1 & oa & ob & -> & Hb & _ & _).
    apply outer_body_done in Hb.
    destruct Hb as (s2 & oc & _ & _ & Hi & _).
    apply (while_first _ _ _ _ _ _ (inner_cond_start _ Hlt)) in Hi.
    destruct Hi as (n'' & s3 & od & oe & _ & Hib & _ & _).
    apply inner_body_done in Hib. destruct Hib as (y1 & Ht & _ & _).
    destruct (solve_first_lines n' y1 Hlt Ht) as [rest Hr].
    rewrite H0 in Hr. simpl in Hr. eauto.
Qed.

(** *** Failure modes *)

Lemma inner_loop_never_ends θ :
  forall n s d,
    θ0 s = θ -> difyr s = Some d -> tol < d ->
    (forall k, exists y1,
       T (damped (fun y => T y θ prms) step k (yr0 s)) θ prms = Ok y1 /\
       tol < Qcabs (y1 - damped (fun y => T y θ prms) step k (yr0 s))) ->
    fst (while n icond ibody s) = OutOfFuel.
Proof.
  induction n as [| n IH]; intros s d Hθ Hd Hgt Hk.
  - rewrite while_out_of_fuel; [reflexivity |].
    unfold icond, inner_cond. rewrite Hd. simpl. f_equal.
    apply gtb_true. exact Hgt.
  - rewrite while_true.
    2:{ unfold icond, inner_cond. rewrite Hd. simpl. f_equal.
        apply gtb_true. exact Hgt. }
    destruct (Hk O) as (y1 & Ht & Hg). simpl in Ht, Hg.
    assert (Ht' : T (yr0 s) (θ0 s) prms = Ok y1) by (rewrite Hθ; exact Ht).
    rewrite (inner_body_ok _ _ Ht'), bind_Done. cbn [fst].
    apply (IH _ (Qcabs (y1 - yr0 s))); try reflexivity; try assumption.
    intro k. specialize (Hk (S k)). simpl in Hk. rewrite Ht in Hk. exact Hk.
Qed.

(** With [tol < 1], the run is still looping whenever the inner loop of the
    first outer pass is. *)
Lemma solve_waits_for_inner_loop :
  tol < 1 ->
  (forall n, fst (while n icond ibody (set_difyr 1 init)) = OutOfFuel) ->
  loops_forever solve.
Proof.
  intros Hlt Hi n. unfold solve, SolveModel. fold ocond. fold obody.
  apply bind_out_of_fuel_l. destruct n as [| n].
  - rewrite while_out_of_fuel; [reflexivity | apply outer_cond_init; exact Hlt].
  - rewrite (while_true _ _ _ _ (outer_cond_init Hlt)).
    apply bind_out_of_fuel_l.
    unfold obody, outer_body. fold icond. fold ibody.
    rewrite bind_print. cbn [fst]. apply bind_out_of_fuel_l. apply Hi.
Qed.

(** C6 (amended). [SolveModel] has no iteration cap and no convergence
    error: on an input on which the inner loop never meets the tolerance
    (every damped iterate from the initial guesses has an undamped gap above
    [tol < 1]), the run is still looping after any number of iterations. *)
Theorem SolveModel_no_iteration_cap :
  tol < 1 ->
  (forall k, exists y1,
     T (damped (fun y => T y 1 prms) step k 1) 1 prms = Ok y1 /\
     tol < Qcabs (y1 - damped (fun y => T y 1 prms) step k 1)) ->
  loops_forever solve.
Proof.
  intros Hlt Hk. apply solve_waits_for_inner_loop; [exact Hlt |].
  intro n. apply (inner_loop_never_ends 1 n (set_difyr 1 init) 1).
  - reflexivity.
  - reflexivity.
  - exact Hlt.
  - exact Hk.
Qed.


End Solver.

(** * The model at work *)

Lemma Qc_neq_by_bool (x y : Qc) : Qc_eq_bool x y = false -> x <> y.
Proof.
  unfold Qc_eq_bool. destruct (Qc_eq_dec x y); [discriminate | auto].
Qed.

(** Evaluation of closed terms: both sides are computed, and two fractions
    are compared through their numerators and denominators. *)
Ltac eval_struct :=
  lazymatch goal with
  | |- @eq Qc _ _ => apply Qc_is_canon; reflexivity
  | |- _ => first [reflexivity | progress f_equal; eval_struct]
  end.
Ltac eval_eq := vm_compute; eval_struct.
Ltac qc_neq := apply Qc_neq_by_bool; vm_compute; reflexivity.
Ltac qc_lt := vm_compute; reflexivity.
Ltac qc_le := vm_compute; discriminate.

(** ** An equilibrium at the initial guess *)

Example ipow_one : ipow 1 (frac 2 1) = Ok 1.
Proof. eval_eq. Qed.

Example ipow_zero_negative : ipow 0 (frac (-1) 1) = Raise ZeroDivisionError.
Proof. vm_compute. reflexivity. Qed.






Example rest_solve :
  SolveModel ipow quad02 secant_root prms_rest tol_default step_default 1
  = (Done (1, 1, frac 1 5, frac 1 5), out_rest).
Proof. eval_eq. Qed.

(** ** Several damped steps *)

Example easy_solve :
  SolveModel ipow quad35 secant_root prms_easy (frac 1 10) step_default 3
  = (Done (frac 65 32, frac 64 63, frac 3969 12161, frac 4032 12161),
     Print "**** Solving for yr given theta"
       :: PrintVal "**** convergence: " (frac 3 2)
       :: PrintVal "**** convergence: " (frac 3 8)
       :: PrintVal "**** convergence: " (frac 3 32)
       :: Print "Solving for theta"
       :: PrintVal "convergence: " (frac 1 63) :: nil).
Proof. eval_eq. Qed.

Example easy_out_of_fuel :
  fst (SolveModel ipow quad35 secant_root prms_easy (frac 1 10) step_default 2)
  = OutOfFuel.
Proof. vm_compute. reflexivity. Qed.

(** ** The theorems on [prms_rest] *)

(** C2 on [prms_rest], at [yR = 1] and [θ = 1]. *)
Lemma TyR_formula_witness :
  ipow 1 (frac 2 1) = Ok 1 /\
  frac 1 8 + frac 1 8 <> 0 /\
  TyR ipow quad02 1 1 prms_rest
    = Ok (frac 1 2 + (1 * 1 * frac 1 2) / (frac 1 8 + frac 1 8)
                       * quad02 (fun y => (y - 1) * pdf U02 y) 1)
  /\ snd (lift (TyR ipow quad02 1 1 prms_rest)) = nil.
Proof.
  split; [exact ipow_one |]. split; [qc_neq |].
  apply (TyR_formula ipow quad02 1 1 (frac 1 2) (frac 1 8) 1 (frac 2 1)
           (frac 1 2) (frac 1 8) (frac 1 2) U02 1 ipow_one).
  qc_neq.
Defined.








(** C10 on [prms_rest], with [tol = 1] and with the default [tol]. *)
Lemma SolveModel_tolerance_threshold_witness :
  (1 <= 1 /\
   SolveModel ipow quad02 secant_root prms_rest 1 step_default 7
   = (Raised (UnboundLocalError "θ1"), nil))
  /\ (tol_default < 1 /\
   exists d rest,
     out_rest = Print "**** Solving for yr given theta"
                  :: PrintVal "**** convergence: " d :: rest).
Proof.
  split.
  - assert (H : 1 <= 1) by qc_le. split; [exact H |].
    exact (proj1 (SolveModel_tolerance_threshold ipow quad02 secant_root
                    prms_rest 1 step_default) H 7%nat).
  - assert (H : tol_default < 1) by qc_lt. split; [exact H |].
    exact (proj2 (SolveModel_tolerance_threshold ipow quad02 secant_root
                    prms_rest tol_default step_default) H 1%nat _ _
                  rest_solve).
Defined.

(** ** A reservation update that cycles *)

Example cycle_up : TyR ipow quad02 1 1 prms_cycle = Ok (frac 2 1).
Proof. eval_eq. Qed.

Example cycle_down : TyR ipow quad02 (frac 2 1) 1 prms_cycle = Ok 1.
Proof. eval_eq. Qed.

(** Without damping the iterates alternate between 1 and 2, one apart. *)
Lemma cycle_never_meets :
  forall k, exists y1,
    TyR ipow quad02
      (damped (fun y => TyR ipow quad02 y 1 prms_cycle) 1 k 1) 1 prms_cycle
    = Ok y1 /\
    tol_default
    < Qcabs (y1 - damped (fun y => TyR ipow quad02 y 1 prms_cycle) 1 k 1).
Proof.
  assert (H : forall k y, y = 1 \/ y = frac 2 1 ->
            exists y1,
              TyR ipow quad02
                (damped (fun y => TyR ipow quad02 y 1 prms_cycle) 1 k y) 1
                prms_cycle = Ok y1 /\
              tol_default
              < Qcabs (y1 - damped (fun y => TyR ipow quad02 y 1 prms_cycle)
                                1 k y)).
  { induction k as [| k IH]; intros y [-> | ->]; cbn [damped].
    - exists (frac 2 1). split; [exact cycle_up | qc_lt].
    - exists 1. split; [exact cycle_down | qc_lt].
    - rewrite cycle_up. apply IH. right. apply Qc_is_canon. reflexivity.
    - rewrite cycle_down. apply IH. left. apply Qc_is_canon. reflexivity. }
  intro k. apply H. left. reflexivity.
Qed.

(** C6 (amended) on [prms_cycle] with [step = 1]. *)
Lemma SolveModel_no_iteration_cap_witness :
  tol_default < 1 /\
  (forall k, exists y1,
     TyR ipow quad02
       (damped (fun y => TyR ipow quad02 y 1 prms_cycle) 1 k 1) 1 prms_cycle
     = Ok y1 /\
     tol_default
     < Qcabs (y1 - damped (fun y => TyR ipow quad02 y 1 prms_cycle) 1 k 1))
  /\ loops_forever
       (SolveModel ipow quad02 secant_root prms_cycle tol_default 1).
Proof.
  assert (Hlt : tol_default < 1) by qc_lt.
  split; [exact Hlt |]. split; [exact cycle_never_meets |].
  exact (SolveModel_no_iteration_cap ipow quad02 secant_root prms_cycle
           tol_default 1 Hlt cycle_never_meets).
Defined.

(** Counterexample to C6 as stated: with [step = 1] on [prms_cycle] the reservation
    update goes from 1 to 2 and back, the gap never falls to [tol], and
    [SolveModel] neither stops at a cap nor raises: it loops forever. *)
Lemma SolveModel_cycle_loops_forever :
  (TyR ipow quad02 1 1 prms_cycle = Ok (frac 2 1) /\
   TyR ipow quad02 (frac 2 1) 1 prms_cycle = Ok 1)
  /\ loops_forever
       (SolveModel ipow quad02 secant_root prms_cycle tol_default 1).
Proof.
  split; [split; [exact cycle_up | exact cycle_down] |].
  assert (Hlt : tol_default < 1) by qc_lt.
  apply solve_waits_for_inner_loop; [exact Hlt |].
  intro n.
  apply (inner_loop_never_ends ipow quad02 prms_cycle tol_default 1 1 n
           (set_difyr 1 init) 1 eq_refl eq_refl Hlt).
  exact cycle_never_meets.
Qed.

(** ** A negative tightness, accepted *)








(** ** No acceptable match *)



(** * Further properties of the solver *)

Section Residuals_at_equilibrium.

Variable pow : Qc -> Qc -> result Qc.
Variable quad : (Qc -> Qc) -> Qc -> Qc.

Lemma JCC_inv θ yr b λ A α β r c F v :
  JCC pow quad θ yr (mkprms b λ A α β r c F) = Ok v ->
  exists p,
    pow θ α = Ok p /\ θ * (r + λ) <> 0 /\
    v = c - (A * p * (1 - β)) / (θ * (r + λ)) * tail quad F yr.
Proof.
  unfold JCC, tail. destruct (pow θ α) as [p | e]; simpl; [| discriminate].
  destruct (truediv (A * p * (1 - β)) (θ * (r + λ))) as [k | e] eqn:E; simpl;
    [| discriminate].
  apply truediv_inv in E. destruct E as [Hd ->]. intro H.
  exists p. repeat split; congruence.
Qed.


End Residuals_at_equilibrium.

Section Solver_results.

Variable pow : Qc -> Qc -> result Qc.
Variable quad : (Qc -> Qc) -> Qc -> Qc.
Variable root : (Qc -> result Qc) -> Qc -> result Qc.
Variable prms : params.
Variable tol : Qc.
Variable step : Qc.

(** Abbreviations for this section. *)
Let T := TyR pow quad.
Let J := JCC pow quad.
Let icond := inner_cond tol.
Let ibody := inner_body pow quad prms step.
Let ocond := outer_cond tol.
Let obody := outer_body pow quad root prms tol step.
Let solve := SolveModel pow quad root prms tol step.

(** A returned result comes from a last outer pass: an update [yR] within
    [tol] of its guess, and the root [θ] found for this very [yR], within
    [tol] of its guess. *)
Lemma solve_done_last_pass n yR θ u v out :
  solve n = (Done (yR, θ, u, v), out) ->
  tol < 1 /\
  exists y0 θp,
    T y0 θp prms = Ok yR /\ Qcabs (yR - y0) <= tol /\
    root (fun x => J x yR prms) θp = Ok θ /\ Qcabs (θ - θp) <= tol.
Proof.
  intro H.
  destruct (solve_done pow quad root prms tol step _ _ _ _ _ _ H)
    as (s & p & Hw & Hy & Hθ & _).
  assert (Hlt : tol < 1).
  { destruct (Qclt_le_dec tol 1) as [Hlt | Hge]; [exact Hlt |].
    exfalso. rewrite while_false in Hw.
    - injection Hw as <- _. discriminate.
    - unfold outer_cond. simpl. f_equal. apply gtb_false. exact Hge. }
  split; [exact Hlt |].
  destruct (outer_loop_done pow quad root prms tol step _ _ _ Hlt Hw)
    as (y0 & θp & yr' & θ' & Ht & Hg & Hr & Hd & Hy' & Hθ').
  rewrite Hy in Hy'. injection Hy' as <-.
  rewrite Hθ in Hθ'. injection Hθ' as <-.
  exists y0, θp. auto.
Qed.


(** X2. With a root finder that only returns exact roots of the residual it
    is given, a returned pair [(yR, θ)] satisfies the job-creation condition
    exactly: the tightness returned is the root found for the reservation
    productivity returned, not the damped guess. *)
Theorem SolveModel_job_creation n yR θ u v out :
  (forall x0 x, root (fun x => J x yR prms) x0 = Ok x -> J x yR prms = Ok 0) ->
  solve n = (Done (yR, θ, u, v), out) ->
  J θ yR prms = Ok 0.
Proof.
  intros Hroot H.
  destruct (solve_done_last_pass _ _ _ _ _ _ H)
    as (_ & y0 & θp & _ & _ & Hr & _).
  exact (Hroot θp θ Hr).
Qed.

(** X4. With [tol < 1] and rates that add up to zero, the first reservation
    update divides by [λ + r]: any run with a budget raises
    [ZeroDivisionError], having printed the first banner only. *)
Theorem SolveModel_zero_rates n p :
  tol < 1 ->
  pow 1 (α prms) = Ok p ->
  λ prms + r prms = 0 ->
  solve (S n)
  = (Raised ZeroDivisionError,
     Print "**** Solving for yr given theta" :: nil).
Proof.
  intros Hlt Hp Hz.
  assert (Ht : T 1 1 prms = Raise ZeroDivisionError).
  { unfold T. destruct prms as [b λ A α β r c F].
    apply (TyR_zero_divisor pow quad 1 1 b λ A α β r c F p Hp Hz). }
  unfold solve, SolveModel.
  rewrite (while_true _ _ _ _ (outer_cond_init tol Hlt)).
  unfold outer_body at 1. rewrite bind_print.
  rewrite (while_true _ _ _ _ (inner_cond_start tol _ Hlt)).
  rewrite (inner_body_raises pow quad prms step (set_difyr 1 init) _ Ht).
  reflexivity.
Qed.

End Solver_results.

(** ** What a run prints *)



Section Solver_output.

Variable pow : Qc -> Qc -> result Qc.
Variable quad : (Qc -> Qc) -> Qc -> Qc.
Variable root : (Qc -> result Qc) -> Qc -> result Qc.
Variable prms : params.
Variable tol : Qc.
Variable step : Qc.

(** Abbreviations for this section. *)
Let icond := inner_cond tol.
Let ibody := inner_body pow quad prms step.
Let ocond := outer_cond tol.
Let obody := outer_body pow quad root prms tol step.
Let solve := SolveModel pow quad root prms tol step.





End Solver_output.

(** ** How a run can fail *)



Section Solver_failures.

Variable pow : Qc -> Qc -> result Qc.
Variable quad : (Qc -> Qc) -> Qc -> Qc.
Variable root : (Qc -> result Qc) -> Qc -> result Qc.
Variable prms : params.
Variable tol : Qc.
Variable step : Qc.

(** Abbreviations for this section. *)
Let T := TyR pow quad.
Let J := JCC pow quad.
Let icond := inner_cond tol.
Let ibody := inner_body pow quad prms step.
Let ocond := outer_cond tol.
Let obody := outer_body pow quad root prms tol step.
Let solve := SolveModel pow quad root prms tol step.






End Solver_failures.

(** ** More order and arithmetic on fractions *)

Lemma Qc_opp_Q (x : Qc) : (this (- x) == - this x)%Q.
Proof.
  unfold Qcopp, Q2Qc. cbn [this]. apply Qred_correct.
Qed.

Lemma Qc_minus_Q (x y : Qc) : (this (x - y) == this x - this y)%Q.
Proof.
  unfold Qcminus. rewrite Qc_plus_Q, Qc_opp_Q. reflexivity.
Qed.

Ltac to_Q :=
  unfold Qcle, Qclt in *;
  repeat first
    [ rewrite Qc_plus_Q in * | rewrite Qc_minus_Q in * | rewrite Qc_mult_Q in *
    | rewrite Qc_div_Q in * | rewrite Qc_opp_Q in * ];
  change (this 0) with 0%Q in *; change (this 1) with 1%Q in *.













(** ** Convergence of the inner loop *)

Section Inner_loop_convergence.

Variable pow : Qc -> Qc -> result Qc.
Variable quad : (Qc -> Qc) -> Qc -> Qc.
Variable prms : params.
Variable tol : Qc.
Variable step : Qc.

(** Abbreviations for this section. *)
Let T := TyR pow quad.
Let icond := inner_cond tol.
Let ibody := inner_body pow quad prms step.

(** At tightness [θ] the reservation update never raises, and is Lipschitz
    with constant [L]. *)
Variable f : Qc -> Qc.
Variable L : Qc.
Variable θ : Qc.
Hypothesis f_update : forall y, T y θ prms = Ok (f y).
Hypothesis f_lipschitz :
  forall a b, Qcabs (f a - f b) <= L * Qcabs (a - b).

(** The ratio by which one damped step shrinks the gap. *)
Let q := Qcabs (1 - step) + Qcabs step * L.




End Inner_loop_convergence.

(** ** Bounds on the result *)

Section Floor.

Variable pow : Qc -> Qc -> result Qc.
Variable quad : (Qc -> Qc) -> Qc -> Qc.
Variable root : (Qc -> result Qc) -> Qc -> result Qc.
Variable prms : params.
Variable tol : Qc.
Variable step : Qc.

(** Collaborators and parameters with the signs the model expects. *)
Hypothesis pow_nonneg : forall x p, pow x (α prms) = Ok p -> 0 <= p.
Hypothesis quad_nonneg :
  forall g a, (forall y, a <= y -> 0 <= g y) -> 0 <= quad g a.
Hypothesis pdf_nonneg : forall y, 0 <= pdf (F prms) y.
Hypothesis A_nonneg : 0 <= A prms.
Hypothesis β_nonneg : 0 <= β prms.
Hypothesis rates_pos : 0 < λ prms + r prms.



End Floor.

(** ** Tuning values at their bounds *)

Section No_step.

Variable pow : Qc -> Qc -> result Qc.
Variable quad : (Qc -> Qc) -> Qc -> Qc.
Variable root : (Qc -> result Qc) -> Qc -> result Qc.
Variable prms : params.
Variable tol : Qc.



End No_step.

Section Negative_tolerance.

Variable pow : Qc -> Qc -> result Qc.
Variable quad : (Qc -> Qc) -> Qc -> Qc.
Variable root : (Qc -> result Qc) -> Qc -> result Qc.
Variable prms : params.
Variable tol : Qc.
Variable step : Qc.

(** X10. A negative [tol] can never be met: [SolveModel] never returns, and
    when the reservation update at the initial tightness never raises, it
    loops forever. *)
Theorem SolveModel_negative_tol :
  tol < 0 ->
  (forall n res out,
     SolveModel pow quad root prms tol step n <> (Done res, out))
  /\ ((forall y, exists t, TyR pow quad y 1 prms = Ok t) ->
      loops_forever (SolveModel pow quad root prms tol step)).
Proof.
  intro Hneg. split.
  - intros n [[[yR θ] u] v] out H.
    destruct (solve_done_last_pass pow quad root prms tol step _ _ _ _ _ _ H)
      as (_ & y0 & θp & _ & Hg & _).
    pose proof (Qcabs_nonneg (yR - y0)) as Ha.
    apply (Qcle_not_lt _ _ (Qcle_trans _ _ _ Ha Hg)). exact Hneg.
  - intro Htot.
    assert (Hlt : tol < 1).
    { apply (Qclt_trans _ 0); [exact Hneg | reflexivity]. }
    apply solve_waits_for_inner_loop; [exact Hlt |].
    intro n.
    apply (inner_loop_never_ends pow quad prms tol step 1 n
             (set_difyr 1 init) 1 eq_refl eq_refl Hlt).
    intro k. destruct (Htot (damped (fun y => TyR pow quad y 1 prms) step k
                               (yr0 (set_difyr 1 init)))) as [t Ht].
    exists t. split; [exact Ht |].
    apply (Qclt_le_trans _ 0); [exact Hneg | apply Qcabs_nonneg].
Qed.

End Negative_tolerance.

Section Accuracy.

Variable pow : Qc -> Qc -> result Qc.
Variable quad : (Qc -> Qc) -> Qc -> Qc.
Variable root : (Qc -> result Qc) -> Qc -> result Qc.
Variable prms : params.
Variable tol : Qc.
Variable step : Qc.

(** The reservation update never raises, and at tightness [θ] it is Lipschitz
    in the guess with constant [L θ]. *)
Variable f : Qc -> Qc -> Qc.
Variable L : Qc -> Qc.
Hypothesis f_update : forall θ y, TyR pow quad y θ prms = Ok (f θ y).
Hypothesis f_lipschitz :
  forall θ a b, Qcabs (f θ a - f θ b) <= L θ * Qcabs (a - b).


End Accuracy.

Section No_bargaining.

Variable pow : Qc -> Qc -> result Qc.
Variable quad : (Qc -> Qc) -> Qc -> Qc.
Variable root : (Qc -> result Qc) -> Qc -> result Qc.
Variable prms : params.
Variable tol : Qc.
Variable step : Qc.

(** X12. Without matching ([A = 0]) or without bargaining power for the
    worker ([β = 0]) the reservation productivity returned is the income
    floor [b] itself. *)
Theorem SolveModel_no_bargaining n yR θ u v out :
  A prms = 0 \/ β prms = 0 ->
  SolveModel pow quad root prms tol step n = (Done (yR, θ, u, v), out) ->
  yR = b prms.
Proof.
  intros Hz H.
  destruct (solve_done_last_pass pow quad root prms tol step _ _ _ _ _ _ H)
    as (_ & y0 & θp & Ht & _).
  destruct prms as [b0 λ0 A0 α0 β0 r0 c0 F0]. cbn [b A β] in *.
  apply TyR_inv in Ht. destruct Ht as (p & _ & Hd & ->).
  destruct Hz as [-> | ->]; field; exact Hd.
Qed.

End No_bargaining.

(** * The further theorems on concrete parameters *)

(** ** The uniform tail integral in closed form *)

Lemma leb_true x y : leb x y = true <-> x <= y.
Proof.
  unfold leb. rewrite negb_true_iff. apply gtb_false.
Qed.

Lemma frac_Q n d : (this (frac n d) == n # d)%Q.
Proof.
  unfold frac, Q2Qc. cbn [this]. apply Qred_correct.
Qed.

Ltac to_Qf := to_Q; rewrite ?frac_Q in *.

Lemma pdf_U02_inside x : 0 <= x -> x <= frac 2 1 -> pdf U02 x = frac 1 2.
Proof.
  intros H0 H2. unfold U02, uniform. cbn [pdf].
  rewrite (proj2 (leb_true _ _) H0), (proj2 (leb_true _ _) H2). cbn [andb].
  apply Qc_is_canon. vm_compute. reflexivity.
Qed.


(** Simpson's rule is exact on the tail integrand of [U02]. *)
Lemma tail_U02 y : tail quad02 U02 y = tail02 y.
Proof.
  unfold tail, quad02, simpson, tail02.
  destruct (gtb 0 y) eqn:E0.
  - replace (gtb (frac 2 1) 0) with true by (vm_compute; reflexivity).
    rewrite !pdf_U02_inside by (vm_compute; discriminate).
    apply Qc_is_canon. to_Qf. field.
  - apply gtb_false in E0.
    destruct (gtb (frac 2 1) y) eqn:E2; [| reflexivity].
    apply gtb_true in E2.
    rewrite !pdf_U02_inside.
    + apply Qc_is_canon. to_Qf. field.
    + vm_compute; discriminate.
    + vm_compute; discriminate.
    + to_Qf. apply Qle_shift_div_l; [reflexivity | lra].
    + to_Qf. apply Qle_shift_div_r; [reflexivity | lra].
    + exact E0.
    + apply Qclt_le_weak. exact E2.
Qed.



(** ** The collaborators' contracts *)

Lemma ipow_square x : ipow x (frac 2 1) = Ok (x * (x * 1)).
Proof. reflexivity. Qed.



(** ** The secant method on a line *)

Section Secant_on_a_line.

Variable f : Qc -> result Qc.
Variable a k : Qc.
Hypothesis f_line : forall x v, f x = Ok v -> v = a - k * x.
Hypothesis k_nonzero : k <> 0.

Lemma secant_at_root n x0 x1 : f x0 = Ok 0 -> secant n f x0 x1 = Ok x0.
Proof.
  intro H. destruct n; cbn [secant]; rewrite H; cbn [rbind];
    rewrite Qc_eq_bool_true; reflexivity.
Qed.

Lemma secant_step n x0 x1 f0 f1 :
  f x0 = Ok f0 -> f0 <> 0 -> f x1 = Ok f1 -> f1 - f0 <> 0 ->
  secant (S n) f x0 x1 = secant n f x1 (x1 - f1 * (x1 - x0) / (f1 - f0)).
Proof.
  intros H0 N0 H1 N1. cbn [secant]. rewrite H0. cbn [rbind].
  rewrite (Qc_eq_bool_false _ _ N0), H1. cbn [rbind].
  rewrite (Qc_eq_bool_false _ _ N1). reflexivity.
Qed.

Lemma secant_raises n x0 x1 e : f x0 = Raise e -> secant n f x0 x1 = Raise e.
Proof.
  intro H. destruct n; cbn [secant]; rewrite H; reflexivity.
Qed.

(** From two distinct points, two secant steps land on the root of a line:
    what the method returns with a budget of two or more is a root. *)
Lemma secant_line_sound n x0 x1 x :
  x1 <> x0 ->
  secant (S (S n)) f x0 x1 = Ok x -> f x = Ok 0.
Proof.
  intros Hx H.
  destruct (f x0) as [f0 | e] eqn:E0;
    [| rewrite (secant_raises _ _ _ _ E0) in H; discriminate].
  destruct (Qc_eq_dec f0 0) as [-> | N0].
  { rewrite (secant_at_root _ _ _ E0) in H. injection H as <-. exact E0. }
  destruct (f x1) as [f1 | e] eqn:E1.
  2:{ cbn [secant] in H. rewrite E0 in H. cbn [rbind] in H.
      rewrite (Qc_eq_bool_false _ _ N0), E1 in H. discriminate. }
  pose proof (f_line _ _ E0) as V0. pose proof (f_line _ _ E1) as V1.
  assert (N1 : f1 - f0 <> 0).
  { rewrite V0, V1. intro K.
    assert (K' : k * (x0 - x1) = 0) by (rewrite <- K; ring).
    apply Qcmult_integral in K'. destruct K' as [K' | K']; [contradiction |].
    apply Hx. transitivity (x0 - (x0 - x1)); [ring | rewrite K'; ring]. }
  rewrite (secant_step _ _ _ _ _ E0 N0 E1 N1) in H.
  destruct (Qc_eq_dec f1 0) as [-> | N1'].
  { rewrite (secant_at_root _ _ _ E1) in H. injection H as <-. exact E1. }
  set (x2 := x1 - f1 * (x1 - x0) / (f1 - f0)) in *.
  destruct (f x2) as [f2 | e] eqn:E2.
  2:{ cbn [secant] in H. rewrite E1 in H. cbn [rbind] in H.
      rewrite (Qc_eq_bool_false _ _ N1'), E2 in H. discriminate. }
  assert (Z2 : f2 = 0).
  { rewrite (f_line _ _ E2). unfold x2. rewrite V0, V1. field.
    intro K. apply N1. rewrite V0, V1. exact K. }
  subst f2.
  assert (N2 : 0 - f1 <> 0).
  { intro K. apply N1'. transitivity (- (0 - f1)); [ring | rewrite K; ring]. }
  rewrite (secant_step _ _ _ _ _ E1 N1' E2 N2) in H.
  rewrite (secant_at_root _ _ _ E2) in H. injection H as <-. exact E2.
Qed.

End Secant_on_a_line.

(** With the exponent 2 the job-creation residual is a line in the tightness,
    wherever it has a value. *)
Lemma square_residual_line quad b λ A β r c F yr x v :
  JCC ipow quad x yr (mkprms b λ A (frac 2 1) β r c F) = Ok v ->
  v = c - A * (1 - β) / (r + λ) * tail quad F yr * x.
Proof.
  intro H. apply JCC_inv in H. destruct H as (p & Hp & Hd & ->).
  rewrite ipow_square in Hp. injection Hp as <-.
  assert (Hx : x <> 0).
  { intro K. apply Hd. rewrite K. ring. }
  assert (Hr : r + λ <> 0).
  { intro K. apply Hd. rewrite K. ring. }
  field. split; assumption.
Qed.

(** So the secant root finder returns exact roots of it. *)
Lemma secant_root_sound quad b λ A β r c F yr x0 x :
  A * (1 - β) / (r + λ) * tail quad F yr <> 0 ->
  secant_root
    (fun x => JCC ipow quad x yr (mkprms b λ A (frac 2 1) β r c F)) x0
  = Ok x ->
  JCC ipow quad x yr (mkprms b λ A (frac 2 1) β r c F) = Ok 0.
Proof.
  unfold secant_root. intros Hk H.
  apply (secant_line_sound _ c (A * (1 - β) / (r + λ) * tail quad F yr)
           (square_residual_line quad b λ A β r c F yr) Hk)
    with (n := 18%nat) (x0 := x0) (x1 := x0 + 1).
  - intro K. assert (K' : 1 = 0).
    { transitivity (x0 + 1 - x0); [ring | rewrite K; ring]. }
    revert K'. apply Q_apart_0_1.
  - exact H.
Qed.

(** ** A mild bargaining weight *)

Lemma mild_update θ y :
  TyR ipow quad02 y θ prms_mild = Ok (update_mild θ y).
Proof.
  unfold TyR, prms_mild. rewrite ipow_square. cbn [rbind].
  rewrite truediv_ok by qc_neq. cbn [rbind]. f_equal.
  change (quad02 (fun y0 => (y0 - y) * pdf U02 y0) y) with (tail quad02 U02 y).
  rewrite tail_U02. unfold update_mild. f_equal.
  set (t := tail02 y). apply Qc_is_canon. to_Qf. field.
Qed.


(** With [tol = 3/4] one pass of each loop is enough. *)
Example mild_solve :
  SolveModel ipow quad02 secant_root prms_mild (frac 3 4) step_default 1
  = (Done (frac 9 16, frac 2048 7935, frac 2737575 3786151,
           frac 706560 3786151), out_mild).
Proof. eval_eq. Qed.



(** X2 on the result for [prms_mild], with the secant root finder. *)
Lemma SolveModel_job_creation_witness :
  (forall x0 x,
     secant_root (fun x => JCC ipow quad02 x (frac 9 16) prms_mild) x0 = Ok x ->
     JCC ipow quad02 x (frac 9 16) prms_mild = Ok 0) /\
  SolveModel ipow quad02 secant_root prms_mild (frac 3 4) step_default 1
    = (Done (frac 9 16, frac 2048 7935, frac 2737575 3786151,
             frac 706560 3786151), out_mild) /\
  JCC ipow quad02 (frac 2048 7935) (frac 9 16) prms_mild = Ok 0.
Proof.
  assert (H : forall x0 x,
             secant_root (fun x => JCC ipow quad02 x (frac 9 16) prms_mild) x0
             = Ok x ->
             JCC ipow quad02 x (frac 9 16) prms_mild = Ok 0).
  { intros x0 x. apply secant_root_sound. qc_neq. }
  split; [exact H |]. split; [exact mild_solve |].
  exact (SolveModel_job_creation ipow quad02 secant_root prms_mild (frac 3 4)
           step_default 1 _ _ _ _ _ H mild_solve).
Defined.


(** X4 on [prms_norates], with a budget of 3. *)
Lemma SolveModel_zero_rates_witness :
  tol_default < 1 /\
  ipow 1 (α prms_norates) = Ok 1 /\
  λ prms_norates + r prms_norates = 0 /\
  SolveModel ipow quad02 secant_root prms_norates tol_default step_default 3
  = (Raised ZeroDivisionError, Print "**** Solving for yr given theta" :: nil).
Proof.
  assert (H1 : tol_default < 1) by qc_lt.
  assert (H2 : λ prms_norates + r prms_norates = 0)
    by (apply Qc_is_canon; vm_compute; reflexivity).
  split; [exact H1 |]. split; [exact ipow_one |]. split; [exact H2 |].
  exact (SolveModel_zero_rates ipow quad02 secant_root prms_norates
           tol_default step_default 2 1 H1 ipow_one H2).
Defined.






(** X10 on [prms_mild] with [tol = -1]. *)
Lemma SolveModel_negative_tol_witness :
  frac (-1) 1 < 0 /\
  (forall n res out,
     SolveModel ipow quad02 secant_root prms_mild (frac (-1) 1) step_default n
     <> (Done res, out)) /\
  (forall y, exists t, TyR ipow quad02 y 1 prms_mild = Ok t) /\
  loops_forever
    (SolveModel ipow quad02 secant_root prms_mild (frac (-1) 1) step_default).
Proof.
  assert (H1 : frac (-1) 1 < 0) by qc_lt.
  assert (H2 : forall y, exists t, TyR ipow quad02 y 1 prms_mild = Ok t).
  { intro y. exists (update_mild 1 y). apply mild_update. }
  destruct (SolveModel_negative_tol ipow quad02 secant_root prms_mild
              (frac (-1) 1) step_default H1) as [Ha Hb].
  split; [exact H1 |]. split; [exact Ha |]. split; [exact H2 |].
  exact (Hb H2).
Defined.


(** ** No bargaining power *)

Example nobargain_solve :
  SolveModel ipow quad02 secant_root prms_nobargain (frac 1 2) 1 2
  = (Done (frac 1 2, frac 2 9, frac 27 35, frac 6 35),
     Print "**** Solving for yr given theta"
       :: PrintVal "**** convergence: " (frac 1 2)
       :: Print "Solving for theta"
       :: PrintVal "convergence: " (frac 7 9)
       :: Print "**** Solving for yr given theta"
       :: PrintVal "**** convergence: " 0
       :: Print "Solving for theta"
       :: PrintVal "convergence: " 0 :: nil).
Proof. eval_eq. Qed.

(** X12 on [prms_nobargain], where the floor is 1/2. *)
Lemma SolveModel_no_bargaining_witness :
  (A prms_nobargain = 0 \/ β prms_nobargain = 0) /\
  fst (SolveModel ipow quad02 secant_root prms_nobargain (frac 1 2) 1 2)
    = Done (frac 1 2, frac 2 9, frac 27 35, frac 6 35) /\
  frac 1 2 = b prms_nobargain.
Proof.
  assert (H : A prms_nobargain = 0 \/ β prms_nobargain = 0)
    by (right; reflexivity).
  split; [exact H |].
  split; [exact (f_equal fst nobargain_solve) |].
  exact (SolveModel_no_bargaining ipow quad02 secant_root prms_nobargain
           (frac 1 2) 1 2 _ _ _ _ _ H nobargain_solve).
Defined.
